(** * Acton's multi-protobuf file format

    A shallow embedding of the two loops of [docs/protobuf_spec.ipynb]

    - the writer: for each protobuf, [struct.pack('<Q', len(proto))] and the
      serialised string are written to the file, one after the other;
    - the reader: [proto_file.read(8)] until it returns the empty string, each
      length being unpacked with [struct.unpack('<Q', length)] and followed by
      [proto_file.read(length)];

    and of the metadata convention the notebook describes in prose.  A
    protobuf is represented by its serialised string: the writer's input is
    the strings [SerializeToString] returned, the reader's output the
    strings it hands to [ParseFromString]. *)

From Stdlib Require Import ZArith List Lia Bool Arith.
From Stdlib Require Import Strings.Byte.
From Equations Require Import Equations.
Import ListNotations.

Local Open Scope Z_scope.

(** ** Data *)

(** A Python [bytes] object. *)
Definition bytes := list byte.

(** [len(b)], a Python integer. *)
Definition len (b : bytes) : Z := Z.of_nat (length b).

(** The only exception the two loops can raise by themselves is
    [struct.error], from [struct.pack] or [struct.unpack]. *)
Inductive error : Type :=
| struct_error.

Inductive result (A : Type) : Type :=
| Ok (a : A)
| Raise (e : error).

Arguments Ok {A} a.
Arguments Raise {A} e.

Definition bind {A B : Type} (r : result A) (k : A -> result B) : result B :=
  match r with
  | Ok a => k a
  | Raise e => Raise e
  end.

Notation "x <- r ;; k" := (bind r (fun x => k))
  (at level 61, r at next level, right associativity).

(** ** Python's [struct] module at the format ['<Q']

    ['<'] is little-endian, standard size, no alignment; ['Q'] is an
    unsigned long long of 8 bytes. *)
Module Struct.

(** The byte of value [z mod 256]. *)
Definition byte_of_Z (z : Z) : byte :=
  match Byte.of_N (Z.to_N (z mod 256)) with
  | Some b => b
  | None => x00
  end.

Definition Z_of_byte (b : byte) : Z := Z.of_N (Byte.to_N b).

(** The [k] low-order bytes of [n], least significant first. *)
Fixpoint to_le (k : nat) (n : Z) : bytes :=
  match k with
  | O => []
  | S k' => byte_of_Z n :: to_le k' (n / 256)
  end.

Fixpoint from_le (buf : bytes) : Z :=
  match buf with
  | [] => 0
  | b :: buf' => Z_of_byte b + 256 * from_le buf'
  end.

(** [struct.pack('<Q', n)]: raises [struct.error] when [n] is not in
    the range of an unsigned 64-bit integer. *)
Definition pack_Q (n : Z) : result bytes :=
  if (0 <=? n) && (n <? 2 ^ 64) then Ok (to_le 8 n) else Raise struct_error.

(** [struct.unpack('<Q', buf)]: raises [struct.error] unless the buffer
    is exactly 8 bytes long. *)
Definition unpack_Q (buf : bytes) : result Z :=
  if Nat.eqb (length buf) 8 then Ok (from_le buf) else Raise struct_error.

End Struct.

(** ** File objects

    A file opened with ['wb'] is the bytes written so far; a file opened
    with ['rb'] is the bytes after the cursor. *)
Definition File := bytes.

(** [f.write(b)] appends at the cursor, which is the end of the file. *)
Definition write (f : File) (b : bytes) : File := f ++ b.

(** [f.read(n)] returns at most [n] bytes, fewer when the file ends first
    and the empty string at the end of the file, and moves the cursor past
    them.  The loops call it with 8 and with an unpacked length, never
    with a negative size.  This is the documented behaviour: CPython
    itself raises [OverflowError] for a size of [2 ^ 63] or more, and
    cannot allocate a size near it, so that a fact on a length that no
    string in memory has is a fact on this definition only. *)
Definition read (f : File) (n : Z) : bytes * File :=
  (firstn (Z.to_nat n) f, skipn (Z.to_nat n) f).

(** ** The writer *)

(** The body of the write loop: [length = struct.pack('<Q', len(proto))],
    [proto_file.write(length)], [proto_file.write(proto)]. *)
Definition write_frame (proto_file : File) (proto : bytes) : result File :=
  length <- Struct.pack_Q (len proto) ;;
  let proto_file := write proto_file length in
  let proto_file := write proto_file proto in
  Ok proto_file.

(** [for proto in protos: ...] *)
Fixpoint write_protos (proto_file : File) (protos : list bytes) : result File :=
  match protos with
  | [] => Ok proto_file
  | proto :: protos' =>
      proto_file <- write_frame proto_file proto ;;
      write_protos proto_file protos'
  end.

(** ** The reader *)

(** The read loop, entered with the result [length] of the
    [proto_file.read(8)] that precedes each test of [while length:].  The
    test is on the string read, which is false only when it is empty.
    This is the loop on the strings alone: it returns the strings that the
    source hands to [ParseFromString], and leaves the call out; the loop
    with the call, which can raise [DecodeError], is [read_loop_messages]
    below. *)
Equations? read_loop (length : bytes) (proto_file : File) : result (list bytes)
  by wf (List.length length + List.length proto_file)%nat lt :=
  read_loop [] proto_file := Ok [];
  read_loop (b :: buf) proto_file with Struct.unpack_Q (b :: buf) => {
    | Raise e := Raise e;
    | Ok n :=
        let proto := fst (read proto_file n) in
        let proto_file1 := snd (read proto_file n) in
        let length := fst (read proto_file1 8) in
        let proto_file2 := snd (read proto_file1 8) in
        protos <- read_loop length proto_file2 ;;
        Ok (proto :: protos) }.
Proof.
  change (List.length (firstn 8 proto_file1)
          + List.length (skipn 8 proto_file1)
          < S (List.length buf + List.length proto_file))%nat.
  rewrite <- length_app, firstn_skipn.
  unfold proto_file1. rewrite length_skipn. lia.
Qed.

(** [length = proto_file.read(8)] followed by the loop. *)
Definition read_protos (proto_file : File) : result (list bytes) :=
  let length := fst (read proto_file 8) in
  let proto_file := snd (read proto_file 8) in
  read_loop length proto_file.

(** One turn of the read loop seen from its caller: the
    [proto_file.read(8)], the test of [while length:], and for a non-empty
    [length] the unpacking and the [proto_file.read(length)].  [None] is
    the end of the stream. *)
Definition read_record (proto_file : File) : result (option bytes * File) :=
  let length := fst (read proto_file 8) in
  let proto_file := snd (read proto_file 8) in
  match length with
  | [] => Ok (None, proto_file)
  | _ :: _ =>
      n <- Struct.unpack_Q length ;;
      Ok (Some (fst (read proto_file n)), snd (read proto_file n))
  end.

(** [k] successive calls of [read_record] on one file object: what each
    returned, and the file object afterwards. *)
Fixpoint read_records (k : nat) (proto_file : File)
  : result (list (option bytes) * File) :=
  match k with
  | O => Ok ([], proto_file)
  | S k' =>
      r <- read_record proto_file ;;
      rs <- read_records k' (snd r) ;;
      Ok (fst r :: fst rs, snd rs)
  end.

(** ** Metadata

    The notebook has no code cell for the metadata, only the sentences
    "This is achieved by encoding the metadata as a bytestring and writing
    it before we write any protobufs. As with protobufs, we must store the
    length of the metadata before the metadata itself, and we again use an
    unsigned long long", and "Reading the files back in is the inverse of
    the above; we simply unpack instead of packing". *)

(** Modelled from the spec: the metadata writer, absent from the
    notebook's code cells; "writes one frame for the metadata", the frame
    being that of the write loop. *)
Definition write_metadata (proto_file : File) (metadata : bytes) : result File :=
  write_frame proto_file metadata.

(** Modelled from the spec: the metadata reader, absent from the
    notebook's code cells; the inverse of [write_metadata], with the
    reads of the read loop: 8 bytes of length, unpacked, then that many
    bytes. *)
Definition read_metadata (proto_file : File) : result (bytes * File) :=
  let length := fst (read proto_file 8) in
  let proto_file := snd (read proto_file 8) in
  n <- Struct.unpack_Q length ;;
  Ok (fst (read proto_file n), snd (read proto_file n)).

(** Writing a whole container to a sink: the metadata, if any, then the
    protobufs. *)
Definition write_container (sink : File) (metadata : option bytes)
  (protos : list bytes) : result File :=
  proto_file <- match metadata with
                | Some m => write_metadata sink m
                | None => Ok sink
                end ;;
  write_protos proto_file protos.

(** Reading a whole container: the metadata first when the caller expects
    one, then the protobufs until the end of the file. *)
Definition read_container (expect_metadata : bool) (source : File)
  : result (option bytes * list bytes) :=
  if expect_metadata then
    m <- read_metadata source ;;
    protos <- read_protos (snd m) ;;
    Ok (Some (fst m), protos)
  else
    protos <- read_protos source ;;
    Ok (None, protos).

(** ** The wire format in closed form *)

(** A payload fits when [struct.pack('<Q', ...)] accepts its length.
    Every Python [bytes] object does: its length is at most
    [sys.maxsize], which is below [2 ^ 64]. *)
Definition fits (proto : bytes) : Prop := len proto < 2 ^ 64.

Definition frame (proto : bytes) : bytes :=
  Struct.to_le 8 (len proto) ++ proto.

Definition frames (protos : list bytes) : bytes := flat_map frame protos.



(** The frame of one payload as the write loop's body produces it: what
    [write_frame] puts in an empty file. *)
Definition encode_frame (payload : bytes) : result bytes :=
  write_frame [] payload.

(** The read loop's [struct.unpack('<Q', length)]. *)
Definition decode_length_prefix (bytes8 : bytes) : result Z :=
  Struct.unpack_Q bytes8.

(** A file cut at a byte offset: the bytes before the offset remain. *)
Definition truncate (file : File) (offset : nat) : File := firstn offset file.

(** The offsets of a container at which a frame begins or the last one
    ends. *)
Definition frame_boundary (protos : list bytes) (offset : nat) : Prop :=
  exists before after,
    protos = before ++ after /\ offset = length (frames before).

(** The offsets strictly inside a frame, [j] bytes after its start. *)
Definition inside_frame (protos : list bytes) (offset : nat) : Prop :=
  exists before proto after j,
    protos = before ++ proto :: after
    /\ offset = (length (frames before) + j)%nat
    /\ (0 < j < 8 + length proto)%nat.


(** ** The write handle of the specification *)

Module ContainerStream.

(** Modelled from the spec: the errors a write call can fail with;
    [ProtocolViolation] is the specification's, [Codec] carries the
    exception of the framing code itself. *)
Inductive failure : Type :=
| ProtocolViolation
| Codec (e : error).

Inductive outcome : Type :=
| Done
| Failed (e : failure).

(** Modelled from the spec: where a write handle is in its life; the
    notebook has no handle, its file object accepts any write. *)
Inductive write_state : Type :=
| Fresh
| MetadataWritten
| RecordsWritten
| Closed.

Record WriteHandle : Type := { sink : File; state : write_state }.

(** Modelled from the spec: [open_for_write(sink) -> WriteHandle]. *)
Definition open_for_write (s : File) : WriteHandle :=
  {| sink := s; state := Fresh |}.

(** Modelled from the spec: [write_metadata(handle, metadata_bytes)],
    "writes one frame for the metadata. Must be called at most once, and
    if called, before any write_record. Calling it twice, or after a
    record has been written, fails with ProtocolViolation"; after
    [close], "no further writes permitted".  The frame is written by
    the notebook's code. *)
Definition write_metadata (h : WriteHandle) (metadata : bytes)
  : WriteHandle * outcome :=
  match state h with
  | Fresh =>
      match write_frame (sink h) metadata with
      | Ok f => ({| sink := f; state := MetadataWritten |}, Done)
      | Raise e => (h, Failed (Codec e))
      end
  | MetadataWritten | RecordsWritten | Closed =>
      (h, Failed ProtocolViolation)
  end.

(** Modelled from the spec: [write_record(handle, record_bytes)],
    "writes one record frame; may be called any number of times". *)
Definition write_record (h : WriteHandle) (record : bytes)
  : WriteHandle * outcome :=
  match state h with
  | Fresh | MetadataWritten | RecordsWritten =>
      match write_frame (sink h) record with
      | Ok f => ({| sink := f; state := RecordsWritten |}, Done)
      | Raise e => (h, Failed (Codec e))
      end
  | Closed => (h, Failed ProtocolViolation)
  end.

(** Modelled from the spec: [close(handle)], "finalizes the sink"; on
    a closed handle it is an operation after close. *)
Definition close (h : WriteHandle) : WriteHandle * outcome :=
  match state h with
  | Closed => (h, Failed ProtocolViolation)
  | Fresh | MetadataWritten | RecordsWritten =>
      ({| sink := sink h; state := Closed |}, Done)
  end.

(** The calls a client can make on a write handle. *)
Inductive call : Type :=
| WriteMetadata (metadata : bytes)
| WriteRecord (record : bytes)
| Close.

Definition step (h : WriteHandle) (c : call) : WriteHandle * outcome :=
  match c with
  | WriteMetadata m => write_metadata h m
  | WriteRecord r => write_record h r
  | Close => close h
  end.

(** A session: the calls made in order, each with its outcome, and the
    handle at the end. *)
Fixpoint run (h : WriteHandle) (cs : list call)
  : WriteHandle * list (call * outcome) :=
  match cs with
  | [] => (h, [])
  | c :: cs' =>
      let h1 := fst (step h c) in
      let o := snd (step h c) in
      (fst (run h1 cs'), (c, o) :: snd (run h1 cs'))
  end.

(** A call that put a frame in the sink. *)
Definition wrote (co : call * outcome) : Prop :=
  match co with
  | (WriteMetadata _, Done) | (WriteRecord _, Done) => True
  | _ => False
  end.

End ContainerStream.

(** ** The loops with their protobufs

    The loops above work on serialised strings.  Here they are with the
    calls of the protobuf methods they contain: [proto.SerializeToString()]
    in the write loop, [proto.ParseFromString(...)] in the read loop. *)

(** The two methods of a protobuf class that the notebook uses.
    [ParseFromString] raises [DecodeError] on a string that is not a
    serialisation: [None] here. *)
Class Codec (Proto : Type) : Type := {
  SerializeToString : Proto -> bytes;
  ParseFromString : bytes -> option Proto
}.

(** What the read loop with its protobufs can raise: [struct.error] from
    [struct.unpack], [DecodeError] from [ParseFromString]. *)
Inductive exception : Type :=
| StructError
| DecodeError.

Inductive parsed (A : Type) : Type :=
| Parsed (a : A)
| Raised (e : exception).

Arguments Parsed {A} a.
Arguments Raised {A} e.

Definition bind_parsed {A B : Type} (r : parsed A) (k : A -> parsed B)
  : parsed B :=
  match r with
  | Parsed a => k a
  | Raised e => Raised e
  end.

Notation "x <~ r ;; k" := (bind_parsed r (fun x => k))
  (at level 61, r at next level, right associativity).

(** The write loop: [proto = proto.SerializeToString()], then the length
    and the string. *)
Fixpoint write_messages {Proto : Type} {C : Codec Proto}
  (proto_file : File) (protos : list Proto) : result File :=
  match protos with
  | [] => Ok proto_file
  | proto :: protos' =>
      let proto := SerializeToString proto in
      length <- Struct.pack_Q (len proto) ;;
      let proto_file := write proto_file length in
      let proto_file := write proto_file proto in
      write_messages proto_file protos'
  end.

(** The read loop: each string read is parsed, before the next length
    is read. *)
Equations? read_loop_messages {Proto : Type} {C : Codec Proto}
  (length : bytes) (proto_file : File) : parsed (list Proto)
  by wf (List.length length + List.length proto_file)%nat lt :=
  read_loop_messages [] proto_file := Parsed [];
  read_loop_messages (b :: buf) proto_file with Struct.unpack_Q (b :: buf) => {
    | Raise e := Raised StructError;
    | Ok n with ParseFromString (fst (read proto_file n)) => {
        | None := Raised DecodeError;
        | Some proto :=
            let proto_file1 := snd (read proto_file n) in
            let length := fst (read proto_file1 8) in
            let proto_file2 := snd (read proto_file1 8) in
            protos <~ read_loop_messages length proto_file2 ;;
            Parsed (proto :: protos) } }.
Proof.
  change (List.length (firstn 8 proto_file1)
          + List.length (skipn 8 proto_file1)
          < S (List.length buf + List.length proto_file))%nat.
  rewrite <- length_app, firstn_skipn.
  unfold proto_file1. rewrite length_skipn. lia.
Qed.

Definition read_messages {Proto : Type} {C : Codec Proto}
  (proto_file : File) : parsed (list Proto) :=
  let length := fst (read proto_file 8) in
  let proto_file := snd (read proto_file 8) in
  read_loop_messages length proto_file.

(** [ParseFromString] on each string of a list, in order, up to the
    first that raises. *)
Fixpoint parse_all {Proto : Type} {C : Codec Proto} (strings : list bytes)
  : parsed (list Proto) :=
  match strings with
  | [] => Parsed []
  | s :: strings' =>
      match ParseFromString s with
      | None => Raised DecodeError
      | Some proto => protos <~ parse_all strings' ;; Parsed (proto :: protos)
      end
  end.

(** A codec of flags, for examples: [true] is the two bytes 08 01,
    [false] the empty string; any other string but 08 00 is refused. *)
#[export] Instance flag_codec : Codec bool :=
  {| SerializeToString := fun flag : bool => if flag then [x08; x01] else [];
     ParseFromString := fun s : bytes =>
       match s with
       | [] => Some false
       | [x08; x00] => Some false
       | [x08; x01] => Some true
       | _ => None
       end |}.

(** ** What the reader makes of a file *)

(** The file is the frames of the payloads, each whole. *)
Definition whole_frames (f : File) (protos : list bytes) : Prop :=
  Forall fits protos /\ f = frames protos.

(** The file is whole frames, then a last frame whose length [n]
    announces more bytes than the file has left. *)
Definition last_payload_short (f : File) (protos : list bytes) : Prop :=
  exists before last n,
    protos = before ++ [last]
    /\ Forall fits before
    /\ len last < n < 2 ^ 64
    /\ f = frames before ++ Struct.to_le 8 n ++ last.

(** The file is whole frames, then 1 to 7 bytes. *)
Definition stray_tail (f : File) : Prop :=
  exists protos rest,
    Forall fits protos
    /\ f = frames protos ++ rest
    /\ (0 < length rest < 8)%nat.

(** The size of a file of frames: 8 bytes and the payload, for each. *)
Fixpoint frames_size (protos : list bytes) : nat :=
  match protos with
  | [] => 0
  | proto :: protos' => (8 + length proto + frames_size protos')%nat
  end.

(** ** Sample data *)

Definition b_meta : bytes := [x6d; x65; x74; x61].
Definition b_AAA : bytes := [x41; x41; x41].


(** The serialisation of [KeyVal {key: "a", value: "b"}] of
    [acton.proto]: field 1, one byte, "a"; field 2, one byte, "b". *)
Definition b_keyval : bytes := [x0a; x01; x61; x12; x01; x62].

(** Its first field alone, the serialisation of [KeyVal {key: "a"}]. *)
Definition b_keyval_cut : bytes := [x0a; x01; x61].

(** ** Facts on files *)

(** A read splits the file: nothing is lost, nothing is read twice. *)
Lemma read_app (f : File) (n : Z) : fst (read f n) ++ snd (read f n) = f.
Proof. apply firstn_skipn. Qed.

Lemma read_length (f : File) (n : Z) :
  (length (fst (read f n)) + length (snd (read f n)))%nat = length f.
Proof. rewrite <- length_app, read_app. reflexivity. Qed.

Lemma read_rest_length (f : File) (n : Z) :
  (length (snd (read f n)) <= length f)%nat.
Proof. pose proof (read_length f n). lia. Qed.

(** ** Facts on [struct] *)

Lemma Z_of_byte_range (b : byte) : 0 <= Struct.Z_of_byte b < 256.
Proof.
  unfold Struct.Z_of_byte. pose proof (Byte.to_N_bounded b). lia.
Qed.

Lemma Z_of_byte_of_Z (z : Z) : Struct.Z_of_byte (Struct.byte_of_Z z) = z mod 256.
Proof.
  unfold Struct.Z_of_byte, Struct.byte_of_Z.
  assert (Hr : 0 <= z mod 256 < 256) by (apply Z.mod_pos_bound; lia).
  destruct (Byte.of_N (Z.to_N (z mod 256))) as [b|] eqn:E.
  - apply Byte.to_of_N in E. rewrite E. lia.
  - apply Byte.of_N_None_iff in E. lia.
Qed.

Lemma to_le_length (k : nat) (n : Z) : length (Struct.to_le k n) = k.
Proof.
  revert n. induction k as [|k IH]; intros n; simpl; [reflexivity|].
  now rewrite IH.
Qed.

Lemma from_le_to_le (k : nat) (n : Z) :
  0 <= n -> Struct.from_le (Struct.to_le k n) = n mod 256 ^ Z.of_nat k.
Proof.
  revert n. induction k as [|k IH]; intros n Hn.
  - simpl. now rewrite Z.mod_1_r.
  - cbn [Struct.to_le Struct.from_le].
    rewrite Z_of_byte_of_Z.
    rewrite IH by (apply Z.div_pos; lia).
    rewrite Nat2Z.inj_succ, Z.pow_succ_r by lia.
    rewrite Z.rem_mul_r by lia. lia.
Qed.

Lemma from_le_range (buf : bytes) :
  0 <= Struct.from_le buf < 256 ^ Z.of_nat (length buf).
Proof.
  induction buf as [|b buf IH].
  - simpl. lia.
  - cbn [Struct.from_le length]. pose proof (Z_of_byte_range b).
    rewrite Nat2Z.inj_succ, Z.pow_succ_r by lia. lia.
Qed.

Lemma pack_Q_fits (n : Z) :
  0 <= n < 2 ^ 64 -> Struct.pack_Q n = Ok (Struct.to_le 8 n).
Proof.
  intros [H0 H1]. unfold Struct.pack_Q.
  apply Z.leb_le in H0. apply Z.ltb_lt in H1. now rewrite H0, H1.
Qed.

Lemma unpack_Q_to_le (n : Z) :
  0 <= n < 2 ^ 64 -> Struct.unpack_Q (Struct.to_le 8 n) = Ok n.
Proof.
  intros Hn. unfold Struct.unpack_Q. rewrite to_le_length. cbn [Nat.eqb].
  rewrite from_le_to_le by lia. f_equal.
  apply Z.mod_small. change (256 ^ Z.of_nat 8) with (2 ^ 64). lia.
Qed.

Lemma unpack_Q_ok_iff (buf : bytes) :
  (exists n, Struct.unpack_Q buf = Ok n) <-> length buf = 8%nat.
Proof.
  unfold Struct.unpack_Q. destruct (Nat.eqb_spec (length buf) 8) as [E|E].
  - split; [intros _; exact E | intros _; eauto].
  - split; [intros [n Hn]; discriminate | intros E'; contradiction].
Qed.

Lemma unpack_Q_raise_iff (buf : bytes) (e : error) :
  Struct.unpack_Q buf = Raise e <-> length buf <> 8%nat.
Proof.
  unfold Struct.unpack_Q. destruct (Nat.eqb_spec (length buf) 8) as [E|E].
  - split; [discriminate | contradiction].
  - split; [intros _; exact E | intros _; now destruct e].
Qed.

(** ** Facts on the writer *)

Lemma read_exact (a b : bytes) (n : Z) :
  Z.to_nat n = length a -> read (a ++ b) n = (a, b).
Proof.
  intros E. unfold read. rewrite E. f_equal.
  - rewrite firstn_app, Nat.sub_diag, firstn_all. cbn [firstn].
    apply app_nil_r.
  - rewrite skipn_app, Nat.sub_diag, skipn_all. reflexivity.
Qed.

Lemma read_short (a : bytes) (n : Z) :
  (length a <= Z.to_nat n)%nat -> read a n = (a, []).
Proof.
  intros H. unfold read. f_equal.
  - now apply firstn_all2.
  - now apply skipn_all2.
Qed.

Lemma len_range (b : bytes) : 0 <= len b.
Proof. unfold len. lia. Qed.

Lemma frame_length (proto : bytes) :
  length (frame proto) = (8 + length proto)%nat.
Proof. unfold frame. now rewrite length_app, to_le_length. Qed.

Lemma frame_prefix (proto : bytes) :
  firstn 8 (frame proto) = Struct.to_le 8 (len proto).
Proof.
  unfold frame.
  rewrite firstn_app, to_le_length, Nat.sub_diag, firstn_all2
    by (now rewrite to_le_length).
  apply app_nil_r.
Qed.

Lemma frames_app (ps qs : list bytes) : frames (ps ++ qs) = frames ps ++ frames qs.
Proof. apply flat_map_app. Qed.

Lemma frames_cons (p : bytes) (ps : list bytes) : frames (p :: ps) = frame p ++ frames ps.
Proof. reflexivity. Qed.

Lemma write_frame_fits (proto_file : File) (proto : bytes) :
  fits proto -> write_frame proto_file proto = Ok (proto_file ++ frame proto).
Proof.
  intros Hfit. unfold write_frame.
  rewrite pack_Q_fits by (split; [apply len_range | exact Hfit]).
  cbn [bind]. unfold write, frame. now rewrite <- app_assoc.
Qed.

Lemma write_frame_too_long (proto_file : File) (proto : bytes) :
  ~ fits proto -> write_frame proto_file proto = Raise struct_error.
Proof.
  intros Hfit. unfold write_frame, Struct.pack_Q, fits in *.
  destruct (Z.ltb_spec (len proto) (2 ^ 64)) as [H|H]; [contradiction|].
  now rewrite andb_false_r.
Qed.

Lemma fits_dec (proto : bytes) : {fits proto} + {~ fits proto}.
Proof. unfold fits. apply Z_lt_dec. Qed.

Lemma write_protos_fits (proto_file : File) (protos : list bytes) :
  Forall fits protos ->
  write_protos proto_file protos = Ok (proto_file ++ frames protos).
Proof.
  intros Hfit. revert proto_file.
  induction Hfit as [|proto protos Hp _ IH]; intros proto_file.
  - cbn. now rewrite app_nil_r.
  - cbn [write_protos]. rewrite write_frame_fits by exact Hp.
    cbn [bind]. rewrite IH, frames_cons. now rewrite <- app_assoc.
Qed.

(** What a write adds to the sink does not depend on what the sink holds. *)
Lemma write_protos_sink (sink : File) (protos : list bytes) :
  write_protos sink protos
  = out <- write_protos [] protos ;; Ok (sink ++ out).
Proof.
  revert sink. induction protos as [|proto protos IH]; intros sink.
  - cbn. now rewrite app_nil_r.
  - cbn [write_protos]. destruct (fits_dec proto) as [Hp|Hp].
    + rewrite !write_frame_fits by exact Hp. cbn [bind app].
      rewrite (IH (sink ++ frame proto)), (IH (frame proto)).
      destruct (write_protos [] protos) as [out|e]; cbn [bind];
        [now rewrite app_assoc | reflexivity].
    + now rewrite !write_frame_too_long by exact Hp.
Qed.


(** ** Facts on the reader *)

Lemma read_loop_nil (proto_file : File) : read_loop [] proto_file = Ok [].
Proof. now simp read_loop. Qed.

Lemma read_loop_cons (b : byte) (buf : bytes) (proto_file : File) :
  read_loop (b :: buf) proto_file
  = n <- Struct.unpack_Q (b :: buf) ;;
    protos <- read_loop (fst (read (snd (read proto_file n)) 8))
                        (snd (read (snd (read proto_file n)) 8)) ;;
    Ok (fst (read proto_file n) :: protos).
Proof.
  simp read_loop. destruct (Struct.unpack_Q (b :: buf)) as [n|e]; reflexivity.
Qed.

(** The loop is the generator run to its end. *)
Lemma read_protos_step (proto_file : File) :
  read_protos proto_file
  = r <- read_record proto_file ;;
    match fst r with
    | None => Ok []
    | Some proto => protos <- read_protos (snd r) ;; Ok (proto :: protos)
    end.
Proof.
  unfold read_protos, read_record.
  destruct (fst (read proto_file 8)) as [|b buf].
  - now rewrite read_loop_nil.
  - rewrite read_loop_cons.
    destruct (Struct.unpack_Q (b :: buf)) as [n|e]; reflexivity.
Qed.

Lemma read_record_eof : read_record [] = Ok (None, []).
Proof. reflexivity. Qed.

Lemma read_record_frame (proto : bytes) (rest : File) :
  fits proto -> read_record (frame proto ++ rest) = Ok (Some proto, rest).
Proof.
  intros Hfit. unfold read_record, frame. rewrite <- app_assoc.
  rewrite read_exact by (now rewrite to_le_length). cbn [fst snd].
  assert (Hn : 0 <= len proto < 2 ^ 64) by (split; [apply len_range | exact Hfit]).
  pose proof (to_le_length 8 (len proto)) as Hl.
  destruct (Struct.to_le 8 (len proto)) as [|b buf] eqn:E; [discriminate|].
  rewrite <- E, unpack_Q_to_le by exact Hn. cbn [bind].
  rewrite read_exact by (unfold len; lia). reflexivity.
Qed.

Lemma read_metadata_frame (metadata : bytes) (rest : File) :
  fits metadata -> read_metadata (frame metadata ++ rest) = Ok (metadata, rest).
Proof.
  intros Hfit. unfold read_metadata, frame. rewrite <- app_assoc.
  rewrite read_exact by (now rewrite to_le_length). cbn [fst snd].
  rewrite unpack_Q_to_le by (split; [apply len_range | exact Hfit]).
  cbn [bind]. rewrite read_exact by (unfold len; lia). reflexivity.
Qed.

Lemma read_protos_eof : read_protos [] = Ok [].
Proof. reflexivity. Qed.

Lemma read_protos_frame (proto : bytes) (rest : File) :
  fits proto ->
  read_protos (frame proto ++ rest)
  = protos <- read_protos rest ;; Ok (proto :: protos).
Proof.
  intros Hfit. rewrite read_protos_step, read_record_frame by exact Hfit.
  reflexivity.
Qed.

Lemma read_protos_frames (protos : list bytes) :
  Forall fits protos -> read_protos (frames protos) = Ok protos.
Proof.
  induction 1 as [|proto protos Hp _ IH].
  - reflexivity.
  - rewrite frames_cons, read_protos_frame by exact Hp. now rewrite IH.
Qed.




(** ** Round trip *)




(** ** The frame codec *)

(** C4. For a payload of at most [2 ^ 64 - 1] bytes the frame exists, its
    first 8 bytes decode to the payload's length, and it is 8 bytes
    longer than the payload. *)
Theorem length_fidelity (p : bytes) :
  len p <= 2 ^ 64 - 1 ->
  exists fr,
    encode_frame p = Ok fr
    /\ decode_length_prefix (firstn 8 fr) = Ok (len p)
    /\ len fr = 8 + len p.
Proof.
  intros Hlen. assert (Hfit : fits p) by (unfold fits; lia).
  exists (frame p). split; [|split].
  - unfold encode_frame. now rewrite write_frame_fits.
  - unfold decode_length_prefix. rewrite frame_prefix.
    apply unpack_Q_to_le. split; [apply len_range | exact Hfit].
  - unfold len. rewrite frame_length. lia.
Qed.

Lemma length_fidelity_witness :
  len b_AAA <= 2 ^ 64 - 1
  /\ exists fr,
       encode_frame b_AAA = Ok fr
       /\ decode_length_prefix (firstn 8 fr) = Ok (len b_AAA)
       /\ len fr = 8 + len b_AAA.
Proof.
  split.
  - vm_compute. discriminate.
  - apply (length_fidelity b_AAA). vm_compute. discriminate.
Defined.

(** ** The end of the stream *)

Lemma read_record_none_iff (f f' : File) :
  read_record f = Ok (None, f') <-> f = [] /\ f' = [].
Proof.
  split.
  - destruct f as [|b f]; [cbn; intros [= <-]; auto|].
    unfold read_record. cbn [read fst firstn Z.to_nat Pos.to_nat Pos.iter_op Nat.add].
    change (Z.to_nat 8) with 8%nat. cbn [firstn].
    destruct (Struct.unpack_Q _); discriminate.
  - intros [-> ->]. reflexivity.
Qed.

Lemma read_available_none (f : File) : fst (read f 8) = [] -> f = [].
Proof.
  destruct f as [|b f]; [reflexivity|].
  unfold read. change (Z.to_nat 8) with 8%nat. discriminate.
Qed.

Lemma read_records_eof (k : nat) :
  read_records k [] = Ok (repeat None k, []).
Proof.
  induction k as [|k IH]; [reflexivity|].
  cbn [read_records]. rewrite read_record_eof. cbn [bind fst snd].
  rewrite IH. reflexivity.
Qed.

(** C5. On a file object with zero bytes left where a length would begin,
    [read_record] returns the end-of-stream value and leaves the file
    object as it was, so any number of further calls return it again,
    none raising. *)
Theorem clean_eof_idempotent (proto_file : File) (k : nat) :
  fst (read proto_file 8) = [] ->
  read_record proto_file = Ok (None, proto_file)
  /\ read_records k proto_file = Ok (repeat None k, proto_file).
Proof.
  intros Hzero. apply read_available_none in Hzero. subst proto_file.
  split; [reflexivity | apply read_records_eof].
Qed.

Lemma clean_eof_idempotent_witness :
  fst (read (snd (read (frame b_AAA) 11)) 8) = []
  /\ read_record (snd (read (frame b_AAA) 11))
     = Ok (None, snd (read (frame b_AAA) 11))
  /\ read_records 3 (snd (read (frame b_AAA) 11))
     = Ok (repeat None 3, snd (read (frame b_AAA) 11)).
Proof.
  split.
  - reflexivity.
  - apply (clean_eof_idempotent (snd (read (frame b_AAA) 11)) 3). reflexivity.
Defined.

(** After the last record of a container has been read, every further
    call finds the end of the stream. *)
Lemma read_records_frames (protos : list bytes) (k : nat) :
  Forall fits protos ->
  read_records (length protos + k) (frames protos)
  = Ok (map Some protos ++ repeat None k, []).
Proof.
  induction 1 as [|proto protos Hp _ IH].
  - cbn [length Nat.add frames flat_map map app].
    apply read_records_eof.
  - cbn [length Nat.add read_records]. rewrite frames_cons.
    rewrite read_record_frame by exact Hp. cbn [bind fst snd].
    rewrite IH. reflexivity.
Qed.

(** ** Truncated files *)

(** One call of the reader raises exactly when 1 to 7 bytes are left:
    they are fewer than 8 and more than none, the loop takes them for a
    length and [struct.unpack] refuses them. *)
Lemma read_record_raise_iff (f : File) (e : error) :
  read_record f = Raise e <-> (0 < length f < 8)%nat.
Proof.
  destruct e. unfold read_record.
  destruct (Nat.lt_ge_cases (length f) 8) as [Hlt|Hge].
  - rewrite read_short by (change (Z.to_nat 8) with 8%nat; lia).
    cbn [fst snd]. destruct f as [|b f].
    + cbn. split; [discriminate | lia].
    + pose proof (proj2 (unpack_Q_raise_iff (b :: f) struct_error)) as Hr.
      rewrite Hr by lia. cbn [bind length] in *. split; [lia | reflexivity].
  - assert (Hl : length (fst (read f 8)) = 8%nat).
    { unfold read. cbn [fst]. change (Z.to_nat 8) with 8%nat.
      rewrite length_firstn. lia. }
    destruct (fst (read f 8)) as [|b buf] eqn:E; [discriminate|].
    destruct (proj2 (unpack_Q_ok_iff (b :: buf)) Hl) as [n ->].
    cbn [bind]. split; [discriminate | lia].
Qed.

Lemma read_protos_short (f : File) :
  (0 < length f < 8)%nat -> read_protos f = Raise struct_error.
Proof.
  intros Hf. rewrite read_protos_step.
  now rewrite (proj2 (read_record_raise_iff f struct_error) Hf).
Qed.

(** A length followed by fewer bytes than it announces: the reader
    returns the bytes there are. *)
Lemma read_record_short_payload (proto part : bytes) :
  fits proto -> (length part <= length proto)%nat ->
  read_record (Struct.to_le 8 (len proto) ++ part) = Ok (Some part, []).
Proof.
  intros Hfit Hpart. unfold read_record.
  rewrite read_exact by (now rewrite to_le_length). cbn [fst snd].
  pose proof (to_le_length 8 (len proto)) as Hl.
  destruct (Struct.to_le 8 (len proto)) as [|b buf] eqn:E; [discriminate|].
  rewrite <- E, unpack_Q_to_le by (split; [apply len_range | exact Hfit]).
  cbn [bind]. rewrite read_short by (unfold len; lia). reflexivity.
Qed.

Lemma truncate_frames (before after : list bytes) (proto : bytes) (j : nat) :
  (j <= 8 + length proto)%nat ->
  truncate (frames (before ++ proto :: after)) (length (frames before) + j)
  = frames before ++ firstn j (frame proto).
Proof.
  intros Hj. unfold truncate. rewrite frames_app, frames_cons, firstn_app_2.
  f_equal. rewrite firstn_app.
  replace (j - length (frame proto))%nat with 0%nat
    by (rewrite frame_length; lia).
  apply app_nil_r.
Qed.

(** Every offset of a container is a frame boundary or lies strictly
    inside one frame. *)
Lemma offset_boundary_or_inside (protos : list bytes) (offset : nat) :
  (offset <= length (frames protos))%nat ->
  frame_boundary protos offset \/ inside_frame protos offset.
Proof.
  revert offset. induction protos as [|proto protos IH]; intros offset Hk.
  - left. exists [], []. cbn in *. split; [reflexivity | lia].
  - rewrite frames_cons, length_app, frame_length in Hk.
    destruct (Nat.eq_dec offset 0) as [->|Hpos].
    { left. exists [], (proto :: protos). split; reflexivity. }
    destruct (Nat.lt_ge_cases offset (8 + length proto)) as [Hin|Hout].
    { right. exists [], proto, protos, offset. cbn. repeat split; lia. }
    destruct (IH (offset - (8 + length proto))%nat ltac:(lia))
      as [(before & after & -> & Hoff)
         |(before & p & after & j & -> & Hoff & Hj)].
    + left. exists (proto :: before), after. split; [reflexivity|].
      rewrite frames_cons, length_app, frame_length. lia.
    + right. exists (proto :: before), p, after, j.
      split; [reflexivity|]. split; [|exact Hj].
      rewrite frames_cons, length_app, frame_length. lia.
Qed.

(** C2, as the specification has it, fails: the file of the single
    record [b_keyval], 14 bytes, cut at offset 11, strictly inside the
    frame, is read without any error, and the 3 bytes left of the payload
    come back as a record. *)
Lemma truncated_payload_read_as_record :
  Forall fits [b_keyval]
  /\ inside_frame [b_keyval] 11
  /\ ~ frame_boundary [b_keyval] 11
  /\ read_protos (truncate (frames [b_keyval]) 11) = Ok [b_keyval_cut]
  /\ ~ (exists e, read_protos (truncate (frames [b_keyval]) 11) = Raise e).
Proof.
  split; [repeat constructor|]. split; [|split; [|split]].
  - exists [], b_keyval, [], 11%nat. cbn. repeat split; lia.
  - intros (before & after & Hsplit & Hoff).
    destruct before as [|p [|q before]]; cbn in Hsplit.
    + discriminate Hoff.
    + injection Hsplit as <- _. discriminate Hoff.
    + destruct before; discriminate Hsplit.
  - reflexivity.
  - intros [e He]. discriminate He.
Qed.

(** With [expect_metadata] the cut payload can be the metadata. *)
Lemma truncated_metadata_read_as_metadata :
  read_container true (truncate (frames [b_keyval]) 11)
  = Ok (Some b_keyval_cut, []).
Proof. reflexivity. Qed.

(** ** [struct.unpack] under the read loop *)

Lemma read_8_length (f : File) : (length (fst (read f 8)) <= 8)%nat.
Proof.
  unfold read. cbn [fst]. change (Z.to_nat 8) with 8%nat.
  rewrite length_firstn. lia.
Qed.

(** C7. [decode_length_prefix] raises exactly on a buffer that is not 8
    bytes long, which for a buffer that [proto_file.read(8)] returned is
    one of fewer than 8 bytes; the read loop keeps from it the empty
    buffer only, so that a call of the reader raises, in
    [decode_length_prefix], exactly when 1 to 7 bytes are left where a
    length would begin. *)
Theorem decode_failure_reach :
  (forall buf, decode_length_prefix buf = Raise struct_error
               <-> length buf <> 8%nat)
  /\ (forall f, decode_length_prefix (fst (read f 8)) = Raise struct_error
                <-> (length (fst (read f 8)) < 8)%nat)
  /\ (forall f, read_record f = Raise struct_error
                <-> fst (read f 8) <> []
                    /\ decode_length_prefix (fst (read f 8)) = Raise struct_error)
  /\ (forall f, read_record f = Raise struct_error
                <-> (1 <= length f <= 7)%nat).
Proof.
  split; [|split; [|split]].
  - intros buf. apply unpack_Q_raise_iff.
  - intros f. unfold decode_length_prefix. rewrite unpack_Q_raise_iff.
    pose proof (read_8_length f). lia.
  - intros f. unfold decode_length_prefix, read_record.
    destruct (fst (read f 8)) as [|b buf].
    + split; [discriminate | intros [H _]; now elim H].
    + destruct (Struct.unpack_Q (b :: buf)) as [n|[]]; cbn [bind].
      * split; [discriminate | intros [_ H]; discriminate H].
      * split; [intros _; split; [discriminate | reflexivity] | reflexivity].
  - intros f. rewrite read_record_raise_iff. lia.
Qed.

(** C7, as the specification has it, fails: on a file of one byte the
    read loop itself hands the 1-byte buffer to [struct.unpack], whose
    failure is the loop's. *)
Lemma decode_failure_reached_by_loop :
  fst (read [x01] 8) = [x01]
  /\ decode_length_prefix (fst (read [x01] 8)) = Raise struct_error
  /\ read_record [x01] = Raise struct_error
  /\ read_protos [x01] = Raise struct_error.
Proof. repeat split. Qed.

(** ** Metadata and records on the wire *)

Lemma write_container_sink (sink : File) (metadata : option bytes)
  (protos : list bytes) :
  write_container sink metadata protos
  = out <- write_container [] metadata protos ;; Ok (sink ++ out).
Proof.
  unfold write_container, write_metadata. destruct metadata as [m|].
  - destruct (fits_dec m) as [Hm|Hm].
    + rewrite !write_frame_fits by exact Hm. cbn [bind app].
      rewrite (write_protos_sink (sink ++ frame m)).
      rewrite (write_protos_sink (frame m)).
      destruct (write_protos [] protos) as [out|e]; cbn [bind];
        [now rewrite app_assoc | reflexivity].
    + now rewrite !write_frame_too_long by exact Hm.
  - cbn [bind]. apply write_protos_sink.
Qed.



(** ** Empty records *)




(** ** The write handle *)

Section WriteHandle.
Import ContainerStream.

Lemma write_metadata_not_fresh (h : WriteHandle) (m : bytes) :
  state h <> Fresh -> write_metadata h m = (h, Failed ProtocolViolation).
Proof.
  intros Hs. unfold write_metadata.
  destruct (state h); [contradiction | reflexivity..].
Qed.

(** No call takes a handle back to its fresh state. *)
Lemma step_not_fresh (h : WriteHandle) (c : call) :
  state h <> Fresh -> state (fst (step h c)) <> Fresh.
Proof.
  intros Hs. destruct c as [m|r|]; cbn [step];
    unfold write_metadata, write_record, close;
    destruct (state h) eqn:E; try contradiction;
    try destruct (write_frame (sink h) _);
    cbn [fst state]; rewrite ?E; discriminate.
Qed.

(** A call that wrote a frame leaves the handle past its fresh state. *)
Lemma step_wrote (h : WriteHandle) (c : call) :
  wrote (c, snd (step h c)) -> state (fst (step h c)) <> Fresh.
Proof.
  destruct c as [m|r|]; cbn [step wrote];
    unfold write_metadata, write_record;
    destruct (state h) eqn:E;
    try destruct (write_frame (sink h) _);
    cbn [fst snd state wrote]; try contradiction; discriminate.
Qed.

Lemma run_not_fresh (cs : list call) (h : WriteHandle) :
  state h <> Fresh \/ Exists wrote (snd (run h cs)) ->
  state (fst (run h cs)) <> Fresh.
Proof.
  revert h. induction cs as [|c cs IH]; intros h H.
  - cbn [run fst snd] in *. destruct H as [H|H]; [exact H | inversion H].
  - cbn [run fst snd] in *. apply IH. destruct H as [H|H].
    + left. now apply step_not_fresh.
    + inversion H as [? ? Hw|? ? Hw]; subst.
      * left. now apply step_wrote.
      * right. exact Hw.
Qed.

(** A rejected call leaves the handle, and so the sink, as it was. *)
Lemma step_failed (h : WriteHandle) (c : call) (e : failure) :
  snd (step h c) = Failed e -> fst (step h c) = h.
Proof.
  destruct c as [m|r|]; cbn [step];
    unfold write_metadata, write_record, close;
    destruct (state h); try destruct (write_frame (sink h) _);
    cbn [fst snd]; intros H; try discriminate H; reflexivity.
Qed.

End WriteHandle.

(** C6. On a write handle through which the metadata or a record has
    already been written, whatever else was called on it since it was
    opened, [write_metadata] fails with [ProtocolViolation] and returns
    the handle as it was: the sink has no byte more. *)
Theorem write_metadata_protocol (s : File) (cs : list ContainerStream.call)
  (m : bytes) :
  Exists ContainerStream.wrote
         (snd (ContainerStream.run (ContainerStream.open_for_write s) cs)) ->
  ContainerStream.write_metadata
    (fst (ContainerStream.run (ContainerStream.open_for_write s) cs)) m
  = (fst (ContainerStream.run (ContainerStream.open_for_write s) cs),
     ContainerStream.Failed ContainerStream.ProtocolViolation)
  /\ ContainerStream.sink
       (fst (ContainerStream.write_metadata
               (fst (ContainerStream.run (ContainerStream.open_for_write s) cs))
               m))
     = ContainerStream.sink
         (fst (ContainerStream.run (ContainerStream.open_for_write s) cs)).
Proof.
  intros Hw.
  assert (Hs : ContainerStream.state
                 (fst (ContainerStream.run (ContainerStream.open_for_write s) cs))
               <> ContainerStream.Fresh)
    by (apply run_not_fresh; now right).
  rewrite (write_metadata_not_fresh _ m Hs). split; reflexivity.
Qed.

Lemma write_metadata_protocol_witness :
  Exists ContainerStream.wrote
         (snd (ContainerStream.run (ContainerStream.open_for_write [])
                 [ContainerStream.WriteMetadata b_meta]))
  /\ ContainerStream.write_metadata
       (fst (ContainerStream.run (ContainerStream.open_for_write [])
               [ContainerStream.WriteMetadata b_meta])) b_meta
     = (fst (ContainerStream.run (ContainerStream.open_for_write [])
               [ContainerStream.WriteMetadata b_meta]),
        ContainerStream.Failed ContainerStream.ProtocolViolation)
  /\ ContainerStream.sink
       (fst (ContainerStream.write_metadata
               (fst (ContainerStream.run (ContainerStream.open_for_write [])
                       [ContainerStream.WriteMetadata b_meta])) b_meta))
     = ContainerStream.sink
         (fst (ContainerStream.run (ContainerStream.open_for_write [])
                 [ContainerStream.WriteMetadata b_meta])).
Proof.
  split.
  - constructor. exact I.
  - apply (write_metadata_protocol [] [ContainerStream.WriteMetadata b_meta] b_meta).
    constructor. exact I.
Defined.

(** The metadata goes in at most once, and before anything else: in a
    session, a [write_metadata] that succeeded has no successful write
    before it. *)
Lemma write_metadata_first (s : File) (cs : list ContainerStream.call)
  (m : bytes) :
  snd (ContainerStream.step
         (fst (ContainerStream.run (ContainerStream.open_for_write s) cs))
         (ContainerStream.WriteMetadata m))
  = ContainerStream.Done ->
  ~ Exists ContainerStream.wrote
      (snd (ContainerStream.run (ContainerStream.open_for_write s) cs)).
Proof.
  intros Hdone Hw. cbn [ContainerStream.step] in Hdone.
  rewrite write_metadata_not_fresh in Hdone; [discriminate Hdone|].
  apply run_not_fresh. now right.
Qed.

(** ** More on [struct] *)

Lemma byte_of_Z_of_byte (b : byte) (r : Z) :
  Struct.byte_of_Z (Struct.Z_of_byte b + 256 * r) = b.
Proof.
  unfold Struct.byte_of_Z. pose proof (Z_of_byte_range b) as Hb.
  replace ((Struct.Z_of_byte b + 256 * r) mod 256) with (Struct.Z_of_byte b).
  - unfold Struct.Z_of_byte. rewrite N2Z.id, Byte.of_to_N. reflexivity.
  - rewrite (Z.mul_comm 256 r), Z.mod_add by lia.
    symmetry. apply Z.mod_small. exact Hb.
Qed.

Lemma to_le_from_le (buf : bytes) :
  Struct.to_le (length buf) (Struct.from_le buf) = buf.
Proof.
  induction buf as [|b buf IH]; [reflexivity|].
  cbn [length Struct.from_le Struct.to_le].
  rewrite byte_of_Z_of_byte. f_equal.
  replace ((Struct.Z_of_byte b + 256 * Struct.from_le buf) / 256)
    with (Struct.from_le buf); [exact IH|].
  pose proof (Z_of_byte_range b) as Hb.
  rewrite (Z.mul_comm 256), Z.div_add by lia.
  rewrite (Z.div_small (Struct.Z_of_byte b)) by exact Hb. lia.
Qed.

Lemma unpack_Q_inv (buf : bytes) (n : Z) :
  Struct.unpack_Q buf = Ok n ->
  length buf = 8%nat /\ 0 <= n < 2 ^ 64 /\ Struct.to_le 8 n = buf.
Proof.
  unfold Struct.unpack_Q. destruct (Nat.eqb_spec (length buf) 8) as [E|E];
    [|discriminate].
  intros [= <-]. split; [exact E|]. split.
  - pose proof (from_le_range buf) as Hr. rewrite E in Hr.
    change (256 ^ Z.of_nat 8) with (2 ^ 64) in Hr. exact Hr.
  - rewrite <- E at 1. apply to_le_from_le.
Qed.

(** X1. A buffer that [struct.unpack('<Q', ...)] accepts unpacks to an
    integer from 0 to [2 ^ 64 - 1] that [struct.pack('<Q', ...)] packs
    back into the very same buffer; so the write loop, for a string of
    that length, writes this buffer and no other before the string. *)
Theorem pack_unpack_inverse (buf : bytes) (n : Z) (sink : File) (proto : bytes) :
  Struct.unpack_Q buf = Ok n ->
  len proto = n ->
  0 <= n < 2 ^ 64
  /\ Struct.pack_Q n = Ok buf
  /\ write_frame sink proto = Ok (sink ++ buf ++ proto).
Proof.
  intros Hu Hlen. destruct (unpack_Q_inv buf n Hu) as (_ & Hn & Hle).
  split; [exact Hn|]. split.
  - rewrite pack_Q_fits by exact Hn. now rewrite Hle.
  - rewrite write_frame_fits by (unfold fits; lia).
    unfold frame. now rewrite Hlen, Hle.
Qed.

Lemma pack_unpack_inverse_witness :
  Struct.unpack_Q [x03; x00; x00; x00; x00; x00; x00; x00] = Ok 3
  /\ len b_AAA = 3
  /\ 0 <= 3 < 2 ^ 64
  /\ Struct.pack_Q 3 = Ok [x03; x00; x00; x00; x00; x00; x00; x00]
  /\ write_frame b_meta b_AAA
     = Ok (b_meta ++ [x03; x00; x00; x00; x00; x00; x00; x00] ++ b_AAA).
Proof.
  split; [reflexivity|]. split; [reflexivity|].
  apply (pack_unpack_inverse [x03; x00; x00; x00; x00; x00; x00; x00] 3
           b_meta b_AAA); reflexivity.
Defined.

(** ** More on the writer *)

Lemma write_frame_inv (proto_file f : File) (proto : bytes) :
  write_frame proto_file proto = Ok f ->
  fits proto /\ f = proto_file ++ frame proto.
Proof.
  intros Hw. destruct (fits_dec proto) as [Hp|Hp].
  - rewrite write_frame_fits in Hw by exact Hp. now injection Hw as <-.
  - rewrite write_frame_too_long in Hw by exact Hp. discriminate Hw.
Qed.

Lemma write_protos_inv (protos : list bytes) (sink f : File) :
  write_protos sink protos = Ok f ->
  Forall fits protos /\ f = sink ++ frames protos.
Proof.
  revert sink. induction protos as [|proto protos IH]; intros sink Hw.
  - cbn in Hw. injection Hw as <-. split; [constructor|].
    cbn. now rewrite app_nil_r.
  - cbn [write_protos] in Hw.
    destruct (write_frame sink proto) as [f1|e] eqn:E; [|discriminate Hw].
    cbn [bind] in Hw. apply write_frame_inv in E as [Hp ->].
    apply IH in Hw as [Hps ->]. split; [now constructor|].
    now rewrite frames_cons, app_assoc.
Qed.

Lemma frames_length (protos : list bytes) :
  length (frames protos) = frames_size protos.
Proof.
  induction protos as [|proto protos IH]; [reflexivity|].
  rewrite frames_cons, length_app, frame_length, IH. cbn [frames_size]. lia.
Qed.

(** X2. The file tells the records: two lists of strings that the write
    loop turns into the same file, from the same sink, are the same
    list. *)
Theorem write_protos_injective (sink f : File) (protos protos' : list bytes) :
  write_protos sink protos = Ok f ->
  write_protos sink protos' = Ok f ->
  protos = protos'.
Proof.
  intros H1 H2.
  apply write_protos_inv in H1 as [Hfit1 E1].
  apply write_protos_inv in H2 as [Hfit2 E2].
  assert (E : frames protos = frames protos')
    by (apply (app_inv_head sink); congruence).
  pose proof (read_protos_frames protos Hfit1) as R1.
  rewrite E, (read_protos_frames protos' Hfit2) in R1. congruence.
Qed.

Lemma write_protos_injective_witness :
  write_protos b_meta [b_AAA; []] = Ok (b_meta ++ frames [b_AAA; []])
  /\ [b_AAA; []] = [b_AAA; []].
Proof.
  split; [reflexivity|].
  apply (write_protos_injective b_meta (b_meta ++ frames [b_AAA; []]));
    reflexivity.
Defined.

(** X3. The write loop only appends: when it returns, the file begins
    with what the sink held, and has grown by 8 bytes and the length of
    the string for each protobuf. *)
Theorem write_protos_appends (sink f : File) (protos : list bytes) :
  write_protos sink protos = Ok f ->
  firstn (length sink) f = sink
  /\ length f = (length sink + frames_size protos)%nat.
Proof.
  intros Hw. apply write_protos_inv in Hw as [_ ->]. split.
  - rewrite firstn_app, Nat.sub_diag, firstn_all. cbn [firstn].
    apply app_nil_r.
  - now rewrite length_app, frames_length.
Qed.

Lemma write_protos_appends_witness :
  write_protos b_meta [b_AAA; []] = Ok (b_meta ++ frames [b_AAA; []])
  /\ firstn (length b_meta) (b_meta ++ frames [b_AAA; []]) = b_meta
  /\ length (b_meta ++ frames [b_AAA; []])
     = (length b_meta + frames_size [b_AAA; []])%nat.
Proof.
  split; [reflexivity|].
  apply (write_protos_appends b_meta (b_meta ++ frames [b_AAA; []]) [b_AAA; []]).
  reflexivity.
Defined.

(** X4. Writing a list of protobufs in two runs of the loop on the same
    file object, the first part then the rest, is writing it in one run;
    when the first run raises, so does the single one. *)
Theorem write_protos_app (sink : File) (protos protos' : list bytes) :
  write_protos sink (protos ++ protos')
  = (f <- write_protos sink protos ;; write_protos f protos').
Proof.
  revert sink. induction protos as [|proto protos IH]; intros sink.
  - reflexivity.
  - cbn [app write_protos].
    destruct (write_frame sink proto) as [f1|e]; cbn [bind];
      [apply IH | reflexivity].
Qed.

(** ** More on the reader *)

(** What one turn of the loop that returned a string has read: a length
    [n] on 8 bytes, then the string, which is [n] bytes long unless the
    file ended first. *)
Lemma read_record_some_inv (f f' : File) (p : bytes) :
  read_record f = Ok (Some p, f') ->
  exists n,
    0 <= n < 2 ^ 64
    /\ f = Struct.to_le 8 n ++ p ++ f'
    /\ (len p = n \/ (len p < n /\ f' = [])).
Proof.
  unfold read_record. pose proof (read_app f 8) as Hf.
  set (rest := snd (read f 8)) in *.
  destruct (fst (read f 8)) as [|b buf]; [discriminate|].
  destruct (Struct.unpack_Q (b :: buf)) as [n|e] eqn:E; [|discriminate].
  cbn [bind]. intros H. injection H as Hp Hf'.
  apply unpack_Q_inv in E as (_ & Hn & Hle).
  exists n. split; [exact Hn|]. split.
  - rewrite <- Hp, <- Hf', Hle, firstn_skipn. now symmetry.
  - rewrite <- Hp, <- Hf'. unfold len.
    destruct (Nat.le_gt_cases (Z.to_nat n) (length rest)) as [Hle'|Hgt].
    + left. rewrite length_firstn. lia.
    + right. rewrite firstn_all2, skipn_all2 by lia.
      split; [lia | reflexivity].
Qed.

Lemma read_record_announced (n : Z) (part : bytes) :
  0 <= n < 2 ^ 64 -> len part <= n ->
  read_record (Struct.to_le 8 n ++ part) = Ok (Some part, []).
Proof.
  intros Hn Hpart. unfold read_record.
  rewrite read_exact by (now rewrite to_le_length). cbn [fst snd].
  pose proof (to_le_length 8 n) as Hl.
  destruct (Struct.to_le 8 n) as [|b buf] eqn:E; [discriminate|].
  rewrite <- E, unpack_Q_to_le by exact Hn.
  cbn [bind]. rewrite read_short by (unfold len in Hpart; lia). reflexivity.
Qed.

Lemma read_protos_announced (n : Z) (part : bytes) :
  0 <= n < 2 ^ 64 -> len part <= n ->
  read_protos (Struct.to_le 8 n ++ part) = Ok [part].
Proof.
  intros Hn Hpart.
  now rewrite read_protos_step, read_record_announced.
Qed.

Lemma frames_size_app (ps qs : list bytes) :
  frames_size (ps ++ qs) = (frames_size ps + frames_size qs)%nat.
Proof.
  induction ps as [|p ps IH]; [reflexivity|].
  cbn [app frames_size]. rewrite IH. lia.
Qed.

(** The three ways a file can be, and what the read loop returns in
    each. *)
Lemma read_protos_cases (f : File) :
  match read_protos f with
  | Ok protos => whole_frames f protos \/ last_payload_short f protos
  | Raise _ => stray_tail f
  end.
Proof.
  remember (length f) as k eqn:Hk. revert f Hk.
  induction k as [k IH] using lt_wf_ind. intros f ->.
  rewrite read_protos_step.
  destruct (read_record f) as [[[p|] f']|e] eqn:E; cbn [bind fst snd].
  - destruct (read_record_some_inv f f' p E) as (n & Hn & Hf & Hcase).
    assert (Hlt : (length f' < length f)%nat).
    { rewrite Hf, !length_app, to_le_length. lia. }
    specialize (IH (length f') Hlt f' eq_refl).
    destruct Hcase as [Hlen|[Hlen ->]].
    + assert (Hp : fits p) by (unfold fits; lia).
      assert (Hfr : f = frame p ++ f').
      { rewrite Hf. unfold frame. now rewrite Hlen, <- app_assoc. }
      destruct (read_protos f') as [ps|e']; cbn [bind].
      * destruct IH as [[Hps ->]|(before & last & n' & -> & Hb & Hn' & ->)].
        -- left. split; [now constructor | exact Hfr].
        -- right. exists (p :: before), last, n'.
           split; [reflexivity|]. split; [now constructor|].
           split; [exact Hn'|]. now rewrite frames_cons, <- app_assoc.
      * destruct IH as (ps & rest & Hps & -> & Hrest).
        exists (p :: ps), rest. split; [now constructor|].
        split; [|exact Hrest]. now rewrite frames_cons, <- app_assoc.
    + cbn [read_protos bind]. rewrite read_protos_eof. cbn [bind].
      right. exists [], p, n. split; [reflexivity|].
      split; [constructor|]. split; [lia|].
      rewrite Hf. cbn [frames flat_map app]. now rewrite app_nil_r.
  - apply read_record_none_iff in E as [-> ->].
    left. split; [constructor | reflexivity].
  - apply read_record_raise_iff in E.
    exists [], f. split; [constructor|]. split; [reflexivity | exact E].
Qed.



(** X8. When the read loop returns, every byte of the file is in its
    result or was a length: the file is 8 bytes and the string's length
    long for each string returned, and so holds at most one string for
    each 8 bytes. *)
Theorem read_protos_accounts (f : File) (protos : list bytes) :
  read_protos f = Ok protos ->
  length f = frames_size protos
  /\ (8 * length protos <= length f)%nat.
Proof.
  intros Hr. pose proof (read_protos_cases f) as Hc. rewrite Hr in Hc.
  assert (Hsize : length f = frames_size protos).
  { destruct Hc as [[_ ->]|(before & last & n & -> & _ & _ & ->)].
    - apply frames_length.
    - rewrite !length_app, to_le_length, frames_length, frames_size_app.
      cbn [frames_size]. lia. }
  split; [exact Hsize|]. rewrite Hsize. clear.
  induction protos as [|p ps IH]; cbn [length frames_size]; lia.
Qed.

Lemma read_protos_accounts_witness :
  read_protos (truncate (frames [b_AAA; b_keyval]) 22) = Ok [b_AAA; b_keyval_cut]
  /\ length (truncate (frames [b_AAA; b_keyval]) 22)
     = frames_size [b_AAA; b_keyval_cut]
  /\ (8 * length [b_AAA; b_keyval_cut]
      <= length (truncate (frames [b_AAA; b_keyval]) 22))%nat.
Proof.
  split; [reflexivity|].
  apply (read_protos_accounts (truncate (frames [b_AAA; b_keyval]) 22)).
  reflexivity.
Defined.

(** ** The loops with their protobufs *)

Section Messages.
Context {Proto : Type} {C : Codec Proto}.

(** The write loop is the loop on strings, run on the serialisations. *)
Lemma write_messages_protos (sink : File) (protos : list Proto) :
  write_messages sink protos
  = write_protos sink (map SerializeToString protos).
Proof.
  revert sink. induction protos as [|proto protos IH]; intros sink.
  - reflexivity.
  - cbn [write_messages map write_protos]. unfold write_frame.
    destruct (Struct.pack_Q (len (SerializeToString proto))) as [l|e];
      cbn [bind]; [apply IH | reflexivity].
Qed.

Lemma read_messages_step (f : File) :
  read_messages f
  = match read_record f with
    | Raise _ => Raised StructError
    | Ok (None, _) => Parsed []
    | Ok (Some s, f') =>
        match ParseFromString s with
        | None => Raised DecodeError
        | Some proto =>
            protos <~ read_messages f' ;; Parsed (proto :: protos)
        end
    end.
Proof.
  unfold read_messages, read_record.
  destruct (fst (read f 8)) as [|b buf].
  - now simp read_loop_messages.
  - simp read_loop_messages.
    destruct (Struct.unpack_Q (b :: buf)) as [n|e]; cbn [bind];
      [|reflexivity].
    cbn. destruct (ParseFromString (fst (read (snd (read f 8)) n)));
      reflexivity.
Qed.

Lemma read_messages_eof : read_messages [] = Parsed (@nil Proto).
Proof. now rewrite read_messages_step. Qed.

Lemma parse_all_app (ss ss' : list bytes) :
  parse_all (ss ++ ss')
  = (ms <~ parse_all ss ;; ms' <~ parse_all ss' ;; Parsed (ms ++ ms')).
Proof.
  induction ss as [|s ss IH].
  - cbn. now destruct (parse_all ss').
  - cbn [app parse_all]. destruct (ParseFromString s) as [m|]; [|reflexivity].
    rewrite IH. destruct (parse_all ss) as [ms|e]; cbn [bind_parsed];
      [|reflexivity].
    destruct (parse_all ss') as [ms'|e]; reflexivity.
Qed.

(** Whole frames first: their strings are parsed in order, then the
    loop goes on with the rest of the file. *)
Lemma read_messages_frames_app (ss : list bytes) (rest : File) :
  Forall fits ss ->
  read_messages (frames ss ++ rest)
  = (ms <~ parse_all ss ;; more <~ read_messages rest ;; Parsed (ms ++ more)).
Proof.
  induction 1 as [|s ss Hs _ IH].
  - cbn. now destruct (read_messages rest).
  - rewrite frames_cons, <- app_assoc, read_messages_step.
    rewrite read_record_frame by exact Hs. cbn [parse_all].
    destruct (ParseFromString s) as [m|]; [|reflexivity].
    rewrite IH. destruct (parse_all ss) as [ms|e]; cbn [bind_parsed];
      [|reflexivity].
    destruct (read_messages rest) as [more|e]; reflexivity.
Qed.

Lemma read_messages_announced (n : Z) (part : bytes) :
  0 <= n < 2 ^ 64 -> len part <= n ->
  read_messages (Struct.to_le 8 n ++ part) = parse_all [part].
Proof.
  intros Hn Hpart. rewrite read_messages_step, read_record_announced
    by assumption.
  cbn [parse_all]. destruct (ParseFromString part) as [m|]; [|reflexivity].
  now rewrite read_messages_eof.
Qed.

Lemma parse_all_serialized (protos : list Proto) :
  (forall proto, ParseFromString (SerializeToString proto) = Some proto) ->
  parse_all (map SerializeToString protos) = Parsed protos.
Proof.
  intros Hlaw. induction protos as [|proto protos IH]; [reflexivity|].
  cbn [map parse_all]. now rewrite Hlaw, IH.
Qed.

End Messages.

(** X9. For a protobuf class whose [ParseFromString] undoes its
    [SerializeToString], the protobufs the write loop puts in an empty
    file are those the read loop gets from it, in the same order. *)
Theorem messages_roundtrip {Proto : Type} {C : Codec Proto}
  (protos : list Proto) :
  (forall proto, ParseFromString (SerializeToString proto) = Some proto) ->
  Forall fits (map SerializeToString protos) ->
  exists f,
    write_messages [] protos = Ok f /\ read_messages f = Parsed protos.
Proof.
  intros Hlaw Hfit. exists (frames (map SerializeToString protos)). split.
  - now rewrite write_messages_protos, write_protos_fits.
  - rewrite <- (app_nil_r (frames _)), read_messages_frames_app by exact Hfit.
    rewrite parse_all_serialized by exact Hlaw.
    rewrite read_messages_eof. cbn [bind_parsed]. now rewrite app_nil_r.
Qed.

Lemma messages_roundtrip_witness :
  (forall flag : bool,
      ParseFromString (SerializeToString flag) = Some flag)
  /\ Forall fits (map SerializeToString [true; false; true])
  /\ exists f,
       write_messages [] [true; false; true] = Ok f
       /\ read_messages f = Parsed [true; false; true].
Proof.
  split; [intros []; reflexivity|]. split; [repeat constructor|].
  apply (messages_roundtrip (C := flag_codec) [true; false; true]).
  - intros []; reflexivity.
  - repeat constructor.
Defined.

(** X10. On a file from which the loop on strings returns, the loop
    with its protobufs hands these strings to [ParseFromString], in
    order: it returns the protobufs when each string parses, and raises
    [DecodeError] otherwise.  The bytes left of a cut payload are parsed
    like any other string. *)
Theorem read_messages_parses_strings {Proto : Type} {C : Codec Proto}
  (f : File) (strings : list bytes) :
  read_protos f = Ok strings ->
  read_messages f = parse_all strings.
Proof.
  intros Hr. pose proof (read_protos_cases f) as Hc. rewrite Hr in Hc.
  destruct Hc as [[Hfit ->]|(before & last & n & -> & Hb & Hn & ->)].
  - rewrite <- (app_nil_r (frames strings)).
    rewrite read_messages_frames_app by exact Hfit.
    rewrite read_messages_eof.
    destruct (parse_all strings) as [ms|e]; cbn [bind_parsed];
      [now rewrite app_nil_r | reflexivity].
  - rewrite read_messages_frames_app by exact Hb.
    pose proof (len_range last).
    rewrite read_messages_announced by lia. now rewrite parse_all_app.
Qed.

Lemma read_messages_parses_strings_witness :
  read_protos (truncate (frames [[x08; x01]; [x08; x01]]) 19)
  = Ok [[x08; x01]; [x08]]
  /\ read_messages (C := flag_codec)
       (truncate (frames [[x08; x01]; [x08; x01]]) 19)
     = parse_all [[x08; x01]; [x08]].
Proof.
  split; [reflexivity|].
  apply (read_messages_parses_strings (C := flag_codec)
           (truncate (frames [[x08; x01]; [x08; x01]]) 19)).
  reflexivity.
Defined.

(** X11. A string that [ParseFromString] refuses, in a whole frame
    after frames whose strings all parse, makes the read loop raise
    [DecodeError], whatever follows it in the file: what follows is
    never read. *)
Theorem undecodable_payload_raises {Proto : Type} {C : Codec Proto}
  (before : list bytes) (bad : bytes) (rest : File) (protos : list Proto) :
  Forall fits before -> fits bad ->
  parse_all before = Parsed protos ->
  ParseFromString bad = None ->
  read_messages (frames before ++ frame bad ++ rest) = Raised DecodeError.
Proof.
  intros Hb Hbad Hparse Hnone.
  rewrite read_messages_frames_app by exact Hb.
  rewrite Hparse. cbn [bind_parsed].
  rewrite read_messages_step, read_record_frame by exact Hbad.
  now rewrite Hnone.
Qed.

Lemma undecodable_payload_raises_witness :
  Forall fits [[x08; x01]] /\ fits [xff]
  /\ parse_all (C := flag_codec) [[x08; x01]] = Parsed [true]
  /\ ParseFromString (Codec := flag_codec) [xff] = None
  /\ read_messages (C := flag_codec)
       (frames [[x08; x01]] ++ frame [xff] ++ [x01; x02; x03])
     = Raised DecodeError.
Proof.
  split; [repeat constructor|]. split; [reflexivity|].
  split; [reflexivity|]. split; [reflexivity|].
  apply (undecodable_payload_raises (C := flag_codec)
           [[x08; x01]] [xff] [x01; x02; x03] [true]);
    try reflexivity.
  repeat constructor.
Defined.

Lemma parse_all_raised {Proto : Type} {C : Codec Proto}
  (strings : list bytes) (e : exception) :
  parse_all strings = Raised e -> e = DecodeError.
Proof.
  revert e. induction strings as [|s strings IH]; intros e; [discriminate|].
  cbn [parse_all]. destruct (ParseFromString s) as [m|];
    [|now intros [= <-]].
  destruct (parse_all strings) as [ms|e']; cbn [bind_parsed];
    [discriminate|].
  intros [= <-]. now apply IH.
Qed.

Lemma read_messages_short {Proto : Type} {C : Codec Proto} (f : File) :
  (0 < length f < 8)%nat -> read_messages f = Raised (A := list Proto) StructError.
Proof.
  intros Hf. rewrite read_messages_step.
  now rewrite (proj2 (read_record_raise_iff f struct_error) Hf).
Qed.

(** X12. The read loop with its protobufs raises [struct.error] exactly
    on a file made of whole frames whose strings all parse, followed by
    1 to 7 bytes. *)
Theorem read_messages_struct_error {Proto : Type} {C : Codec Proto} (f : File) :
  read_messages f = Raised (A := list Proto) StructError
  <-> exists strings rest protos,
        Forall fits strings
        /\ f = frames strings ++ rest
        /\ (0 < length rest < 8)%nat
        /\ parse_all strings = Parsed (protos : list Proto).
Proof.
  split.
  - intros Hr. pose proof (read_protos_cases f) as Hc.
    destruct (read_protos f) as [strings|e] eqn:R.
    + exfalso. destruct Hc as [[Hfit ->]|(before & last & n & -> & Hb & Hn & ->)].
      * rewrite <- (app_nil_r (frames strings)) in Hr.
        rewrite read_messages_frames_app, read_messages_eof in Hr by exact Hfit.
        destruct (parse_all strings) as [ms|e] eqn:P; cbn [bind_parsed] in Hr;
          [discriminate Hr|].
        apply parse_all_raised in P. congruence.
      * pose proof (len_range last).
        rewrite read_messages_frames_app in Hr by exact Hb.
        rewrite read_messages_announced in Hr by lia.
        destruct (parse_all before) as [ms|e] eqn:P; cbn [bind_parsed] in Hr.
        -- destruct (parse_all [last]) as [ms'|e] eqn:P'; cbn [bind_parsed] in Hr;
             [discriminate Hr|].
           apply parse_all_raised in P'. congruence.
        -- apply parse_all_raised in P. congruence.
    + destruct Hc as (strings & rest & Hfit & -> & Hrest).
      rewrite read_messages_frames_app in Hr by exact Hfit.
      destruct (parse_all strings) as [ms|e'] eqn:P; cbn [bind_parsed] in Hr.
      * now exists strings, rest, ms.
      * apply parse_all_raised in P. congruence.
  - intros (strings & rest & protos & Hfit & -> & Hrest & Hparse).
    rewrite read_messages_frames_app by exact Hfit.
    rewrite Hparse, read_messages_short by exact Hrest. reflexivity.
Qed.

(** ** The loop with its protobufs on the three kinds of file *)

Section MessagesOnFiles.
Context {Proto : Type} {C : Codec Proto}.

Lemma read_messages_whole (strings : list bytes) :
  Forall fits strings ->
  read_messages (frames strings) = parse_all strings.
Proof.
  intros Hfit. rewrite <- (app_nil_r (frames strings)).
  rewrite read_messages_frames_app by exact Hfit.
  rewrite read_messages_eof.
  destruct (parse_all strings) as [ms|e]; cbn [bind_parsed];
    [now rewrite app_nil_r | reflexivity].
Qed.

Lemma read_messages_short_last (before : list bytes) (last : bytes) (n : Z) :
  Forall fits before -> len last <= n < 2 ^ 64 ->
  read_messages (frames before ++ Struct.to_le 8 n ++ last)
  = parse_all (before ++ [last]).
Proof.
  intros Hb Hn. pose proof (len_range last).
  rewrite read_messages_frames_app by exact Hb.
  rewrite read_messages_announced by lia. now rewrite parse_all_app.
Qed.

Lemma read_messages_stray (strings : list bytes) (rest : File) :
  Forall fits strings -> (0 < length rest < 8)%nat ->
  read_messages (frames strings ++ rest)
  = match parse_all strings with
    | Parsed _ => Raised StructError
    | Raised e => Raised e
    end.
Proof.
  intros Hfit Hrest. rewrite read_messages_frames_app by exact Hfit.
  rewrite read_messages_short by exact Hrest.
  destruct (parse_all strings); reflexivity.
Qed.

End MessagesOnFiles.

(** C2. A container whose strings parse, cut inside a frame, [j] bytes
    after the frame's start.  When the cut is inside the length (fewer
    than 8 bytes of the frame remain) the read loop raises
    [struct.error].  When it is inside the payload the loop has no check
    of its own: the bytes left of the payload go to [ParseFromString];
    refused, the loop raises [DecodeError]; accepted, the loop returns
    with no error, the protobuf they parse to being the last one. *)
Theorem truncation_outcome {Proto : Type} {C : Codec Proto}
  (before after : list bytes) (s : bytes) (j : nat) (protos : list Proto) :
  Forall fits (before ++ s :: after) ->
  parse_all before = Parsed protos ->
  (0 < j < 8 + length s)%nat ->
  ((j < 8)%nat ->
   read_messages (truncate (frames (before ++ s :: after))
                           (length (frames before) + j))
   = Raised (A := list Proto) StructError)
  /\ ((8 <= j)%nat ->
      read_messages (truncate (frames (before ++ s :: after))
                              (length (frames before) + j))
      = match ParseFromString (firstn (j - 8) s) with
        | Some proto => Parsed (protos ++ [proto])
        | None => Raised DecodeError
        end).
Proof.
  intros Hfit Hparse Hj. apply Forall_app in Hfit as [Hbefore Hrest].
  inversion Hrest as [|? ? Hs _]; subst.
  rewrite truncate_frames by lia. split; intros Hj8.
  - rewrite read_messages_stray, Hparse; [reflexivity | exact Hbefore |].
    rewrite length_firstn, frame_length. lia.
  - replace (firstn j (frame s))
      with (Struct.to_le 8 (len s) ++ firstn (j - 8) s).
    + rewrite read_messages_short_last; [| exact Hbefore |].
      * rewrite parse_all_app, Hparse. cbn [bind_parsed parse_all].
        destruct (ParseFromString (firstn (j - 8) s)); reflexivity.
      * split; [|exact Hs]. unfold len. rewrite length_firstn. lia.
    + unfold frame. rewrite firstn_app, to_le_length.
      rewrite (firstn_all2 (Struct.to_le 8 (len s)))
        by (rewrite to_le_length; lia).
      reflexivity.
Qed.

Lemma truncation_outcome_witness :
  Forall fits ([[x08; x01]] ++ [x08; x01] :: [[]])
  /\ parse_all [[x08; x01]] = Parsed [true]
  /\ (0 < 8 < 8 + length [x08; x01])%nat
  /\ ((8 < 8)%nat ->
      read_messages (truncate (frames ([[x08; x01]] ++ [x08; x01] :: [[]]))
                              (length (frames [[x08; x01]]) + 8))
      = Raised (A := list bool) StructError)
  /\ ((8 <= 8)%nat ->
      read_messages (truncate (frames ([[x08; x01]] ++ [x08; x01] :: [[]]))
                              (length (frames [[x08; x01]]) + 8))
      = match ParseFromString (firstn (8 - 8) [x08; x01]) with
        | Some proto => Parsed ([true] ++ [proto])
        | None => Raised DecodeError
        end).
Proof.
  split; [repeat constructor|]. split; [reflexivity|].
  split; [simpl; lia|].
  apply (truncation_outcome (C := flag_codec)
           [[x08; x01]] [[]] [x08; x01] 8 [true]).
  - repeat constructor.
  - reflexivity.
  - simpl; lia.
Defined.

(** The cut payload of the witness above is read as a protobuf: the
    flags [true; true] come back as [true; false]. *)
Lemma truncated_flag_read_as_false :
  read_messages (truncate (frames [[x08; x01]; [x08; x01]; []]) 18)
  = Parsed [true; false].
Proof. reflexivity. Qed.

(** X6. When the read loop returns, the file is of one of two kinds: the
    whole frames of the strings that were parsed; or whole frames
    followed by a last length that announces more bytes than were left,
    the bytes left being the last string parsed. *)
Theorem read_messages_returns_shape {Proto : Type} {C : Codec Proto}
  (f : File) (protos : list Proto) :
  read_messages f = Parsed protos ->
  exists strings,
    parse_all strings = Parsed protos
    /\ (whole_frames f strings \/ last_payload_short f strings).
Proof.
  intros Hr. pose proof (read_protos_cases f) as Hc.
  destruct (read_protos f) as [strings|e].
  - exists strings. split; [|exact Hc]. rewrite <- Hr.
    destruct Hc as [[Hfit ->]|(before & last & n & -> & Hb & Hn & ->)].
    + symmetry. now apply read_messages_whole.
    + symmetry. apply read_messages_short_last; [exact Hb | lia].
  - exfalso. destruct Hc as (strings & rest & Hfit & -> & Hrest).
    rewrite read_messages_stray in Hr by assumption.
    destruct (parse_all strings); discriminate Hr.
Qed.

Lemma read_messages_returns_shape_witness :
  read_messages (truncate (frames [[x08; x01]; [x08; x01]]) 18)
  = Parsed [true; false]
  /\ exists strings,
       parse_all strings = Parsed [true; false]
       /\ (whole_frames (truncate (frames [[x08; x01]; [x08; x01]]) 18) strings
           \/ last_payload_short
                (truncate (frames [[x08; x01]; [x08; x01]]) 18) strings).
Proof.
  split; [reflexivity|].
  apply (read_messages_returns_shape (C := flag_codec)
           (truncate (frames [[x08; x01]; [x08; x01]]) 18) [true; false]).
  reflexivity.
Defined.

(** X7. On a file of whole frames followed by 1 to 7 bytes the read loop
    never returns: it raises [DecodeError] at the first string that
    [ParseFromString] refuses, and [struct.error] at the bytes that
    follow the frames when every string parses. *)
Theorem trailing_bytes_raise {Proto : Type} {C : Codec Proto}
  (strings : list bytes) (rest : File) :
  Forall fits strings -> (0 < length rest < 8)%nat ->
  read_messages (frames strings ++ rest)
  = match parse_all strings with
    | Parsed _ => Raised (A := list Proto) StructError
    | Raised _ => Raised DecodeError
    end
  /\ forall protos : list Proto,
       read_messages (frames strings ++ rest) <> Parsed protos.
Proof.
  intros Hfit Hrest.
  assert (H : read_messages (frames strings ++ rest)
              = match parse_all strings with
                | Parsed _ => Raised (A := list Proto) StructError
                | Raised _ => Raised DecodeError
                end).
  { rewrite read_messages_stray by assumption.
    destruct (parse_all strings) as [ms|e] eqn:P; [reflexivity|].
    now rewrite (parse_all_raised strings e P). }
  split; [exact H|]. intros protos. rewrite H.
  destruct (parse_all strings); discriminate.
Qed.

Lemma trailing_bytes_raise_witness :
  Forall fits [[x08; x01]; [xff]]
  /\ (0 < length [x01; x02; x03] < 8)%nat
  /\ read_messages (frames [[x08; x01]; [xff]] ++ [x01; x02; x03])
     = match parse_all [[x08; x01]; [xff]] with
       | Parsed _ => Raised (A := list bool) StructError
       | Raised _ => Raised DecodeError
       end
  /\ forall protos : list bool,
       read_messages (frames [[x08; x01]; [xff]] ++ [x01; x02; x03])
       <> Parsed protos.
Proof.
  split; [repeat constructor|]. split; [simpl; lia|].
  apply (trailing_bytes_raise (C := flag_codec)
           [[x08; x01]; [xff]] [x01; x02; x03]).
  - repeat constructor.
  - simpl; lia.
Defined.
